(** * pkg/secret: secret annotations, secret volumes and their mounts

    A shallow embedding of [pkg/secret/secret.go] of the Spark operator and
    the properties of its five functions.

    - Go strings are byte sequences: [string].
    - [map[string]string] is a [gmap string string]; a [range] over it is a
      loop over a sequence of its keys in an order the language leaves open
      ([RangeOrder]).
    - The functions that receive a [*v1.Pod] or a [*v1.Container] and assign
      to one of its fields are state transformers on the pointee.  The
      pointer is taken to be non-nil (a nil one makes the Go code panic on
      the first field access). *)

From Stdlib Require Import String Ascii.
From stdpp Require Import base list strings gmap fin_maps.

Local Open Scope string_scope.
Local Open Scope list_scope.

(** ** The two functions of Go's [strings] package the code calls *)

(** [strings.HasPrefix(s, prefix)] is
    [len(s) >= len(prefix) && s[:len(prefix)] == prefix]. *)
Definition HasPrefix (s prefix : string) : bool :=
  (String.length prefix <=? String.length s)%nat
  && String.eqb (substring 0 (String.length prefix) s) prefix.

(** [strings.TrimPrefix(s, prefix)] is [s[len(prefix):]] when [s] has the
    prefix and [s] otherwise. *)
Definition TrimPrefix (s prefix : string) : string :=
  if HasPrefix s prefix
  then substring (String.length prefix)
                 (String.length s - String.length prefix) s
  else s.

(** [fmt.Sprintf("%s/%s", a, b)] on two strings. *)
Definition Sprintf_s_slash_s (a b : string) : string := a +:+ "/" +:+ b.

(** ** Constants of the package *)

Definition GoogleApplicationCredentialsEnvVar : string :=
  "GOOGLE_APPLICATION_CREDENTIALS".
Definition ServiceAccountJSONKeyFileName : string := "key.json".
Definition ServiceAccountSecretVolumeName : string :=
  "gcp-service-account-secret-volume".

(** ** The [k8s.io/api/core/v1] structures the package touches

    The structures that the package builds with a composite literal list the
    fields the literal names and neighbouring ones, which the literal leaves
    at their zero value.  The structures that the package only updates in
    place ([Pod], [PodSpec], [Container]) carry every field it does not name
    in one component of an arbitrary type. *)

Record KeyToPath := {
  KeyToPath_Key : string;
  KeyToPath_Path : string;
}.

Record SecretVolumeSource := {
  SecretName : string;
  Items : list KeyToPath;
  DefaultMode : option Z;
  Optional : option bool;
}.

Record HostPathVolumeSource := { HostPath_Path : string }.
Record EmptyDirVolumeSource := { EmptyDir_Medium : string }.

(** Every member of [v1.VolumeSource] is a pointer; [None] is nil. *)
Record VolumeSource := {
  HostPath : option HostPathVolumeSource;
  EmptyDir : option EmptyDirVolumeSource;
  Secret : option SecretVolumeSource;
}.

Record Volume := {
  Volume_Name : string;
  Volume_VolumeSource : VolumeSource;
}.

Record VolumeMount := {
  VolumeMount_Name : string;
  ReadOnly : bool;
  MountPath : string;
  SubPath : string;
}.

Record EnvVar := {
  EnvVar_Name : string;
  EnvVar_Value : string;
}.

Record PodSpec (R : Type) := {
  Volumes : list Volume;
  PodSpec_rest : R;
}.
Arguments Volumes {R} _.
Arguments PodSpec_rest {R} _.

Record Pod (M R : Type) := {
  Pod_meta : M;
  Spec : PodSpec R;
}.
Arguments Pod_meta {M R} _.
Arguments Spec {M R} _.

Record Container (R : Type) := {
  Env : list EnvVar;
  VolumeMounts : list VolumeMount;
  Container_rest : R;
}.
Arguments Env {R} _.
Arguments VolumeMounts {R} _.
Arguments Container_rest {R} _.

(** Field assignments [x.F = v]. *)
Definition set_Volumes {R} (vs : list Volume) (s : PodSpec R) : PodSpec R :=
  {| Volumes := vs; PodSpec_rest := PodSpec_rest s |}.
Definition set_Spec {M R} (s : PodSpec R) (pod : Pod M R) : Pod M R :=
  {| Pod_meta := Pod_meta pod; Spec := s |}.
Definition set_VolumeMounts {R} (ms : list VolumeMount) (c : Container R)
  : Container R :=
  {| Env := Env c; VolumeMounts := ms; Container_rest := Container_rest c |}.
Definition set_Env {R} (es : list EnvVar) (c : Container R) : Container R :=
  {| Env := es; VolumeMounts := VolumeMounts c;
     Container_rest := Container_rest c |}.

(** [append(s, x)] of one element, on the sequence a slice denotes. *)
Definition append {A} (s : list A) (x : A) : list A := s ++ [x].

(** ** The mutating functions *)

Section Mutators.
Context {M R C : Type}.

Definition AddSecretVolumeToPod (secretVolumeName secretName : string)
    (pod : Pod M R) : Pod M R :=
  let volume :=
    {| Volume_Name := secretVolumeName;
       Volume_VolumeSource :=
         {| HostPath := None;
            EmptyDir := None;
            Secret := Some {| SecretName := secretName;
                              Items := [];
                              DefaultMode := None;
                              Optional := None |} |} |} in
  set_Spec (set_Volumes (append (Volumes (Spec pod)) volume) (Spec pod)) pod.

Definition MountSecretToContainer (volumeName mountPath : string)
    (container : Container C) : Container C :=
  let volumeMount :=
    {| VolumeMount_Name := volumeName;
       ReadOnly := true;
       MountPath := mountPath;
       SubPath := "" |} in
  set_VolumeMounts (append (VolumeMounts container) volumeMount) container.

Definition MountServiceAccountSecretToContainer (mountPath : string)
    (container : Container C) : Container C :=
  let container :=
    MountSecretToContainer ServiceAccountSecretVolumeName mountPath
      container in
  let jsonKeyFilePath :=
    Sprintf_s_slash_s mountPath ServiceAccountJSONKeyFileName in
  let appCredentialEnvVar :=
    {| EnvVar_Name := GoogleApplicationCredentialsEnvVar;
       EnvVar_Value := jsonKeyFilePath |} in
  set_Env (append (Env container) appCredentialEnvVar) container.
End Mutators.

(** The volume literal of [AddSecretVolumeToPod] and the mount literal of
    [MountSecretToContainer], to name them in statements. *)
Definition secret_volume (secretVolumeName secretName : string) : Volume :=
  {| Volume_Name := secretVolumeName;
     Volume_VolumeSource :=
       {| HostPath := None; EmptyDir := None;
          Secret := Some {| SecretName := secretName; Items := [];
                            DefaultMode := None; Optional := None |} |} |}.

Definition secret_mount (volumeName mountPath : string) : VolumeMount :=
  {| VolumeMount_Name := volumeName; ReadOnly := true;
     MountPath := mountPath; SubPath := "" |}.

(** Every mount of the container names a volume of the pod. *)
Definition mounts_bound {M R C} (pod : Pod M R) (container : Container C)
  : Prop :=
  ∀ m, m ∈ VolumeMounts container →
       ∃ v, v ∈ Volumes (Spec pod) ∧ Volume_Name v = VolumeMount_Name m.

(** ** The annotation scanners

    [config.GCPServiceAccountSecretAnnotationPrefix] and
    [config.GeneralSecretsAnnotationPrefix] are constants of package
    [config]; the scanners are stated for an arbitrary value of each. *)

(** [m[k]] on a Go map: the zero value when the key is absent. *)
Definition index (m : gmap string string) (k : string) : string :=
  default "" (m !! k).

(** The key sequences a [for k := range m] may go through: every key of [m]
    once, in any order. *)
Definition RangeOrder (m : gmap string string) (keys : list string) : Prop :=
  keys ≡ₚ (map_to_list m).*1.

(** One order among them, to run the scanners. *)
Definition range (m : gmap string string) : list string :=
  (map_to_list m).*1.

Section Scanners.
Variable GCPServiceAccountSecretAnnotationPrefix : string.
Variable GeneralSecretsAnnotationPrefix : string.

(** Both scanners take, before the map, the sequence [keys] that their
    [range annotations] yields; the results below hold for every sequence
    that [RangeOrder annotations] admits.

    [FindGCPServiceAccountSecret]: the loop over the keys still to be
    visited, followed by the [return] after the loop. *)
Fixpoint FindGCPServiceAccountSecret (keys : list string)
    (annotations : gmap string string) : string * string * bool :=
  match keys with
  | [] => ("", "", false)
  | annotation :: keys' =>
      if HasPrefix annotation GCPServiceAccountSecretAnnotationPrefix then
        let name :=
          TrimPrefix annotation GCPServiceAccountSecretAnnotationPrefix in
        let path := index annotations annotation in
        (name, path, true)
      else FindGCPServiceAccountSecret keys' annotations
  end.

(** The body of the loop of [FindGeneralSecrets], on the map [secrets]
    built so far. *)
Definition FindGeneralSecrets_body (annotations : gmap string string)
    (secrets : gmap string string) (annotation : string)
  : gmap string string :=
  if HasPrefix annotation GeneralSecretsAnnotationPrefix then
    let name := TrimPrefix annotation GeneralSecretsAnnotationPrefix in
    let path := index annotations annotation in
    <[name := path]> secrets
  else secrets.

Definition FindGeneralSecrets (keys : list string)
    (annotations : gmap string string) : gmap string string :=
  foldl (FindGeneralSecrets_body annotations) ∅ keys.

(** The keys of a map that bear the general-secrets prefix. *)
Definition prefixed_keys (annotations : gmap string string) : list string :=
  filter (λ k, HasPrefix k GeneralSecretsAnnotationPrefix = true)
         (range annotations).
End Scanners.

(** ** Sample inputs

    Two prefixes in the style of the operator's annotation keys (the
    scanners do not depend on their value), and annotations, a pod and a
    container to run the functions on. *)

Definition sample_gcp_prefix : string :=
  "spark-operator.k8s.io/GCPServiceAccount.".
Definition sample_general_prefix : string :=
  "spark-operator.k8s.io/GeneralSecret.".

Definition one_gcp_annotations : gmap string string :=
  {[ "app" := "spark-pi";
     sample_gcp_prefix +:+ "gcp-key" := "/mnt/secrets" ]}.

Definition two_gcp_annotations : gmap string string :=
  {[ sample_gcp_prefix +:+ "key-a" := "/mnt/a";
     "app" := "spark-pi";
     sample_gcp_prefix +:+ "key-b" := "/mnt/b" ]}.

Definition plain_annotations : gmap string string :=
  {[ "app" := "spark-pi"; "team" := "data" ]}.

Definition general_annotations : gmap string string :=
  {[ sample_general_prefix +:+ "a" := "/m1";
     sample_general_prefix +:+ "b" := "/m2" ]}.

Definition mixed_annotations : gmap string string :=
  {[ sample_general_prefix +:+ "db" := "/mnt/db";
     "app" := "spark-pi";
     sample_general_prefix +:+ "tls" := "/mnt/tls";
     sample_gcp_prefix +:+ "gcp-key" := "/mnt/secrets" ]}.

Definition sample_pod : Pod string unit :=
  {| Pod_meta := "driver";
     Spec := {| Volumes := [secret_volume "v1" "s1"];
                PodSpec_rest := () |} |}.

Definition sample_container : Container string :=
  {| Env := [{| EnvVar_Name := "SPARK_HOME"; EnvVar_Value := "/opt/spark" |}];
     VolumeMounts := [secret_mount "v1" "/etc/creds"];
     Container_rest := "spark-driver" |}.

(** ** Strings: prefixes and concatenation *)

Section StringFacts.
Implicit Types s p t : string.

Lemma string_app_length p t :
  String.length (p +:+ t) = (String.length p + String.length t)%nat.
Proof. induction p as [|c p IH]; simpl; [done | by rewrite IH]. Qed.

Lemma string_app_inj_l p a b : p +:+ a = p +:+ b → a = b.
Proof. induction p as [|c p IH]; simpl; [done | intros [= H]; auto]. Qed.

Lemma substring_all s : substring 0 (String.length s) s = s.
Proof. induction s as [|c s IH]; simpl; [done | by rewrite IH]. Qed.

Lemma substring_app_head p t : substring 0 (String.length p) (p +:+ t) = p.
Proof.
  induction p as [|c p IH]; simpl; [by destruct t | by rewrite IH].
Qed.

Lemma substring_app_tail p t :
  substring (String.length p) (String.length t) (p +:+ t) = t.
Proof. induction p as [|c p IH]; simpl; [apply substring_all | done]. Qed.

Lemma substring_split n s :
  (n ≤ String.length s)%nat →
  s = substring 0 n s +:+ substring n (String.length s - n) s.
Proof.
  revert n. induction s as [|c s IH]; intros [|n] Hn; simpl in *;
    try done; try lia.
  - by rewrite substring_all.
  - change (String c s = String c (substring 0 n s +:+
               substring n (String.length s - n) s)).
    f_equal. apply IH. lia.
Qed.

Lemma HasPrefix_app p t : HasPrefix (p +:+ t) p = true.
Proof.
  unfold HasPrefix. rewrite substring_app_head, String.eqb_refl.
  rewrite andb_true_r. apply Nat.leb_le. rewrite string_app_length. lia.
Qed.

Lemma TrimPrefix_app p t : TrimPrefix (p +:+ t) p = t.
Proof.
  unfold TrimPrefix. rewrite HasPrefix_app, string_app_length.
  replace (String.length p + String.length t - String.length p)%nat
    with (String.length t) by lia.
  apply substring_app_tail.
Qed.

Lemma HasPrefix_split s p :
  HasPrefix s p = true → s = p +:+ TrimPrefix s p.
Proof.
  intros H. unfold TrimPrefix. rewrite H. unfold HasPrefix in H.
  apply andb_true_iff in H as [Hle Heq].
  apply Nat.leb_le in Hle. apply String.eqb_eq in Heq.
  rewrite <- Heq at 1. by apply substring_split.
Qed.

Lemma HasPrefix_iff s p : HasPrefix s p = true ↔ ∃ t, s = p +:+ t.
Proof.
  split.
  - intros H. eexists. by apply HasPrefix_split.
  - intros [t ->]. apply HasPrefix_app.
Qed.

Lemma string_app_empty_r p : p +:+ "" = p.
Proof.
  induction p as [|c p IH]; [done|].
  change (String c (p +:+ "") = String c p). by rewrite IH.
Qed.

Lemma HasPrefix_refl p : HasPrefix p p = true.
Proof.
  pose proof (HasPrefix_app p "") as H. by rewrite string_app_empty_r in H.
Qed.

Lemma TrimPrefix_refl p : TrimPrefix p p = "".
Proof.
  pose proof (TrimPrefix_app p "") as H. by rewrite string_app_empty_r in H.
Qed.

Lemma TrimPrefix_inj s s' p :
  HasPrefix s p = true → HasPrefix s' p = true →
  TrimPrefix s p = TrimPrefix s' p → s = s'.
Proof.
  intros H H' Heq. rewrite (HasPrefix_split s p H), (HasPrefix_split s' p H').
  by rewrite Heq.
Qed.

Lemma TrimPrefix_eq_iff s p t :
  HasPrefix s p = true → TrimPrefix s p = t ↔ s = p +:+ t.
Proof.
  intros H. split.
  - intros <-. by apply HasPrefix_split.
  - intros ->. apply TrimPrefix_app.
Qed.
End StringFacts.

(** ** The mutating functions: what is appended and what is left alone *)

Section MutatorFacts.
Context {M R C : Type}.
Implicit Types (pod : Pod M R) (container : Container C).

Lemma AddSecretVolumeToPod_eq secretVolumeName secretName pod :
  AddSecretVolumeToPod secretVolumeName secretName pod =
  {| Pod_meta := Pod_meta pod;
     Spec := {| Volumes := Volumes (Spec pod)
                           ++ [secret_volume secretVolumeName secretName];
                PodSpec_rest := PodSpec_rest (Spec pod) |} |}.
Proof. reflexivity. Qed.

Lemma MountSecretToContainer_eq volumeName mountPath container :
  MountSecretToContainer volumeName mountPath container =
  {| Env := Env container;
     VolumeMounts := VolumeMounts container
                     ++ [secret_mount volumeName mountPath];
     Container_rest := Container_rest container |}.
Proof. reflexivity. Qed.

Lemma MountServiceAccountSecretToContainer_eq mountPath container :
  MountServiceAccountSecretToContainer mountPath container =
  {| Env := Env container
            ++ [{| EnvVar_Name := GoogleApplicationCredentialsEnvVar;
                   EnvVar_Value := mountPath +:+ "/" +:+ "key.json" |}];
     VolumeMounts := VolumeMounts container
                     ++ [secret_mount ServiceAccountSecretVolumeName
                                      mountPath];
     Container_rest := Container_rest container |}.
Proof. reflexivity. Qed.

(** An appended sequence keeps what it had, where it had it. *)
Lemma append_lookup_old {A} (s : list A) (x : A) i y :
  s !! i = Some y → append s x !! i = Some y.
Proof. intros H. unfold append. by apply lookup_app_l_Some. Qed.

Lemma append_length {A} (s : list A) (x : A) :
  length (append s x) = S (length s).
Proof. unfold append. rewrite length_app. simpl. lia. Qed.

Lemma append_lookup_new {A} (s : list A) (x : A) :
  append s x !! length s = Some x.
Proof. unfold append. by rewrite list_lookup_middle. Qed.
End MutatorFacts.

(** C1. [MountServiceAccountSecretToContainer] has two effects, in this
    order: the call of [MountSecretToContainer] appends to the mounts of the
    container one read-only mount of the volume
    "gcp-service-account-secret-volume" at the base path and leaves the
    environment as it was; then one variable GOOGLE_APPLICATION_CREDENTIALS
    whose value is the base path, "/" and "key.json" is appended to the
    environment.  On an empty container and "/etc/gcp" the result has that
    one mount at "/etc/gcp" and the one variable with value
    "/etc/gcp/key.json". *)
Theorem MountServiceAccountSecretToContainer_two_effects
    {C : Type} (mountPath : string) (container : Container C) :
  let mount :=
    {| VolumeMount_Name := "gcp-service-account-secret-volume";
       ReadOnly := true; MountPath := mountPath; SubPath := "" |} in
  let var :=
    {| EnvVar_Name := "GOOGLE_APPLICATION_CREDENTIALS";
       EnvVar_Value := mountPath +:+ "/" +:+ "key.json" |} in
  let after_mount :=
    MountSecretToContainer ServiceAccountSecretVolumeName mountPath
      container in
  let result := MountServiceAccountSecretToContainer mountPath container in
  (VolumeMounts after_mount = VolumeMounts container ++ [mount]
   ∧ Env after_mount = Env container
   ∧ Container_rest after_mount = Container_rest container)
  ∧ (Env result = Env after_mount ++ [var]
     ∧ VolumeMounts result = VolumeMounts after_mount
     ∧ Container_rest result = Container_rest after_mount)
  ∧ result = {| Env := Env container ++ [var];
                VolumeMounts := VolumeMounts container ++ [mount];
                Container_rest := Container_rest container |}
  ∧ ∀ rest : C,
      MountServiceAccountSecretToContainer "/etc/gcp"
        {| Env := []; VolumeMounts := []; Container_rest := rest |} =
      {| Env := [{| EnvVar_Name := "GOOGLE_APPLICATION_CREDENTIALS";
                    EnvVar_Value := "/etc/gcp/key.json" |}];
         VolumeMounts :=
           [{| VolumeMount_Name := "gcp-service-account-secret-volume";
               ReadOnly := true; MountPath := "/etc/gcp"; SubPath := "" |}];
         Container_rest := rest |}.
Proof. repeat split. Qed.

(** C4. [AddSecretVolumeToPod] puts one volume at the end of the volumes of
    the pod: it has the given name and its secret source names the given
    secret.  From a pod without volumes, adding "v1" for secret "s1" and
    then "v2" for secret "s2" gives exactly these two volumes, in the order
    of the calls. *)
Theorem AddSecretVolumeToPod_appends
    {M R : Type} (secretVolumeName secretName : string) (pod : Pod M R) :
  (∃ volume : Volume,
      Volumes (Spec (AddSecretVolumeToPod secretVolumeName secretName pod))
      = Volumes (Spec pod) ++ [volume]
      ∧ Volume_Name volume = secretVolumeName
      ∧ SecretName <$> Secret (Volume_VolumeSource volume) = Some secretName)
  ∧ length (Volumes (Spec (AddSecretVolumeToPod secretVolumeName secretName
                             pod)))
    = S (length (Volumes (Spec pod)))
  ∧ ∀ (meta : M) (rest : R),
      let empty := {| Pod_meta := meta;
                      Spec := {| Volumes := []; PodSpec_rest := rest |} |} in
      let volumes :=
        Volumes (Spec (AddSecretVolumeToPod "v2" "s2"
                         (AddSecretVolumeToPod "v1" "s1" empty))) in
      volumes = [secret_volume "v1" "s1"; secret_volume "v2" "s2"]
      ∧ Volume_Name <$> volumes = ["v1"; "v2"]
      ∧ (λ v, SecretName <$> Secret (Volume_VolumeSource v)) <$> volumes
        = [Some "s1"; Some "s2"].
Proof.
  split; [|split].
  - by eexists (secret_volume secretVolumeName secretName).
  - simpl. apply append_length.
  - done.
Qed.

(** C5. The mount that [MountSecretToContainer] appends is read-only, for
    every volume name, mount path and container, and so is the one that
    [MountServiceAccountSecretToContainer] appends through it. *)
Theorem created_mounts_read_only
    {C : Type} (volumeName mountPath : string) (container : Container C) :
  (∃ m : VolumeMount,
      VolumeMounts (MountSecretToContainer volumeName mountPath container)
      = VolumeMounts container ++ [m]
      ∧ ReadOnly m = true)
  ∧ (∃ m : VolumeMount,
      VolumeMounts (MountServiceAccountSecretToContainer mountPath container)
      = VolumeMounts container ++ [m]
      ∧ ReadOnly m = true).
Proof. split; by eexists (secret_mount _ mountPath). Qed.

(** C8. Each mutating function changes the sequences it appends to and
    nothing else.  [AddSecretVolumeToPod] keeps every other part of the pod
    and of its spec, [MountSecretToContainer] keeps the environment and
    every other part of the container, [MountServiceAccountSecretToContainer]
    keeps every part of the container but its mounts and its environment;
    each changed sequence is the former one with one entry more at its end,
    so every former entry stays at its index. *)
Theorem mutators_frame
    {M R C : Type} (name secretName mountPath : string)
    (pod : Pod M R) (container : Container C) :
  let pod' := AddSecretVolumeToPod name secretName pod in
  let mounted := MountSecretToContainer name mountPath container in
  let wired := MountServiceAccountSecretToContainer mountPath container in
  (Pod_meta pod' = Pod_meta pod
   ∧ PodSpec_rest (Spec pod') = PodSpec_rest (Spec pod)
   ∧ (∃ v, Volumes (Spec pod') = Volumes (Spec pod) ++ [v])
   ∧ ∀ i v, Volumes (Spec pod) !! i = Some v →
            Volumes (Spec pod') !! i = Some v)
  ∧ (Env mounted = Env container
     ∧ Container_rest mounted = Container_rest container
     ∧ (∃ m, VolumeMounts mounted = VolumeMounts container ++ [m])
     ∧ ∀ i m, VolumeMounts container !! i = Some m →
              VolumeMounts mounted !! i = Some m)
  ∧ (Container_rest wired = Container_rest container
     ∧ (∃ m, VolumeMounts wired = VolumeMounts container ++ [m])
     ∧ (∃ e, Env wired = Env container ++ [e])
     ∧ (∀ i m, VolumeMounts container !! i = Some m →
               VolumeMounts wired !! i = Some m)
     ∧ ∀ i e, Env container !! i = Some e → Env wired !! i = Some e).
Proof.
  repeat split; simpl; eauto using @append_lookup_old.
Qed.

(** C10. [MountServiceAccountSecretToContainer] neither normalises nor
    checks the base path: the value of the variable is the base path as
    given, then "/", then "key.json".  The empty base path gives
    "/key.json" and "/etc/gcp/" gives "/etc/gcp//key.json". *)
Theorem credentials_path_literal
    {C : Type} (mountPath : string) (container : Container C) :
  let value_for (p : string) :=
    EnvVar_Value <$>
      last (Env (MountServiceAccountSecretToContainer p container)) in
  Env (MountServiceAccountSecretToContainer mountPath container)
  = Env container
    ++ [{| EnvVar_Name := "GOOGLE_APPLICATION_CREDENTIALS";
           EnvVar_Value := mountPath +:+ "/" +:+ "key.json" |}]
  ∧ value_for mountPath = Some (mountPath +:+ "/" +:+ "key.json")
  ∧ value_for "" = Some "/key.json"
  ∧ value_for "/etc/gcp/" = Some "/etc/gcp//key.json".
Proof.
  repeat split; simpl; unfold append; by rewrite last_snoc.
Qed.

(** ** Ranging over a map *)

Section RangeFacts.
Implicit Types (m : gmap string string) (keys : list string).

Lemma RangeOrder_range m : RangeOrder m (range m).
Proof. unfold RangeOrder, range. reflexivity. Qed.

Lemma elem_of_range m k : k ∈ range m ↔ is_Some (m !! k).
Proof.
  unfold range. rewrite list_elem_of_fmap. split.
  - intros [[k' v] [-> Hin]]. apply elem_of_map_to_list in Hin. by exists v.
  - intros [v Hv]. exists (k, v). split; [done|].
    by apply elem_of_map_to_list.
Qed.

Lemma RangeOrder_elem_of m keys k :
  RangeOrder m keys → k ∈ keys ↔ is_Some (m !! k).
Proof. intros H. rewrite <- elem_of_range. by rewrite H. Qed.

Lemma RangeOrder_NoDup m keys : RangeOrder m keys → NoDup keys.
Proof. intros H. rewrite H. apply NoDup_fst_map_to_list. Qed.

(** Any key of the map may come first. *)
Lemma RangeOrder_first m k :
  is_Some (m !! k) → ∃ keys, RangeOrder m (k :: keys).
Proof.
  intros Hk. apply elem_of_range, elem_of_Permutation in Hk as [keys Hp].
  exists keys. unfold RangeOrder. by rewrite <- Hp.
Qed.

Lemma index_lookup m k v : m !! k = Some v → index m k = v.
Proof. intros H. unfold index. by rewrite H. Qed.
End RangeFacts.

(** ** The single-secret scanner *)

Section FindGCPFacts.
Variable prefix : string.
Implicit Types (m : gmap string string) (keys : list string).

Lemma FindGCP_none keys m :
  (∀ k, k ∈ keys → HasPrefix k prefix = false) →
  FindGCPServiceAccountSecret prefix keys m = ("", "", false).
Proof.
  induction keys as [|k keys IH]; intros H; simpl; [done|].
  rewrite (H k) by left. apply IH. intros k' Hk'. apply H. by right.
Qed.

Lemma FindGCP_some keys m :
  (∃ k, k ∈ keys ∧ HasPrefix k prefix = true) →
  ∃ k, k ∈ keys ∧ HasPrefix k prefix = true
       ∧ FindGCPServiceAccountSecret prefix keys m
         = (TrimPrefix k prefix, index m k, true).
Proof.
  induction keys as [|k keys IH]; intros (k0 & Hin & Hp).
  - by apply elem_of_nil in Hin.
  - simpl. destruct (HasPrefix k prefix) eqn:Hk.
    + exists k. split; [left | done].
    + apply elem_of_cons in Hin as [-> | Hin]; [congruence|].
      destruct IH as (k1 & Hin1 & Hp1 & Heq); [by eauto|].
      exists k1. split; [by right | done].
Qed.

Lemma FindGCP_found_false keys m :
  (FindGCPServiceAccountSecret prefix keys m).2 = false →
  ∀ k, k ∈ keys → HasPrefix k prefix = false.
Proof.
  intros H k Hin. destruct (HasPrefix k prefix) eqn:Hk; [|done].
  destruct (FindGCP_some keys m) as (k1 & _ & _ & Heq); [by eauto|].
  rewrite Heq in H. done.
Qed.

Lemma FindGCP_head k keys m :
  HasPrefix k prefix = true →
  FindGCPServiceAccountSecret prefix (k :: keys) m
  = (TrimPrefix k prefix, index m k, true).
Proof. intros H. simpl. by rewrite H. Qed.
End FindGCPFacts.

(** ** The multi-secret scanner *)

Section FindGeneralFacts.
Variable prefix : string.
Implicit Types (m acc : gmap string string) (keys : list string).

Lemma FindGeneralSecrets_body_lookup m acc k name :
  FindGeneralSecrets_body prefix m acc k !! name
  = if decide (k = prefix +:+ name) then Some (index m k) else acc !! name.
Proof.
  unfold FindGeneralSecrets_body.
  destruct (HasPrefix k prefix) eqn:Hk.
  - destruct (decide (k = prefix +:+ name)) as [->|Hne].
    + by rewrite TrimPrefix_app, lookup_insert_eq.
    + rewrite lookup_insert_ne; [done|].
      intros Heq. apply Hne. by apply TrimPrefix_eq_iff.
  - destruct (decide (k = prefix +:+ name)) as [->|Hne]; [|done].
    by rewrite HasPrefix_app in Hk.
Qed.

Lemma FindGeneralSecrets_fold_lookup m keys acc name :
  foldl (FindGeneralSecrets_body prefix m) acc keys !! name
  = if decide (prefix +:+ name ∈ keys)
    then Some (index m (prefix +:+ name))
    else acc !! name.
Proof.
  revert acc. induction keys as [|k keys IH]; intros acc; simpl.
  - reflexivity.
  - rewrite IH, FindGeneralSecrets_body_lookup.
    destruct (decide (prefix +:+ name ∈ keys)) as [Hin|Hnin].
    + rewrite decide_True; [done | by right].
    + destruct (decide (k = prefix +:+ name)) as [->|Hne].
      * rewrite decide_True; [done | left].
      * rewrite decide_False; [done|].
        intros [?|?]%elem_of_cons; congruence.
Qed.

Lemma FindGeneralSecrets_lookup m keys name :
  RangeOrder m keys →
  FindGeneralSecrets prefix keys m !! name = m !! (prefix +:+ name).
Proof.
  intros Hr. unfold FindGeneralSecrets.
  rewrite FindGeneralSecrets_fold_lookup, lookup_empty.
  case_decide as Hin.
  - apply (RangeOrder_elem_of m) in Hin as [v Hv]; [|done].
    by rewrite Hv, (index_lookup _ _ _ Hv).
  - rewrite (RangeOrder_elem_of m) in Hin by done.
    symmetry. by apply eq_None_not_Some.
Qed.

Lemma FindGeneralSecrets_order_irrelevant m keys keys' :
  RangeOrder m keys → RangeOrder m keys' →
  FindGeneralSecrets prefix keys m = FindGeneralSecrets prefix keys' m.
Proof.
  intros H H'. apply map_eq. intros name.
  by rewrite !FindGeneralSecrets_lookup.
Qed.

Lemma FindGeneralSecrets_fold_size m keys acc :
  NoDup keys →
  (∀ k, k ∈ keys → HasPrefix k prefix = true →
        acc !! TrimPrefix k prefix = None) →
  size (foldl (FindGeneralSecrets_body prefix m) acc keys)
  = (size acc
     + length (filter (λ k, HasPrefix k prefix = true) keys))%nat.
Proof.
  revert acc. induction keys as [|k keys IH]; intros acc Hnd Hfresh; simpl.
  - lia.
  - apply NoDup_cons in Hnd as [Hk Hnd].
    unfold FindGeneralSecrets_body at 2.
    destruct (HasPrefix k prefix) eqn:Hp.
    + rewrite filter_cons_True by done. rewrite IH; [|done|].
      * rewrite map_size_insert_None; [simpl; lia|].
        apply Hfresh; [left | done].
      * intros k' Hin' Hp'. rewrite lookup_insert_ne.
        { apply Hfresh; [by right | done]. }
        intros Heq. apply Hk.
        by rewrite (TrimPrefix_inj k k' prefix Hp Hp' Heq).
    + rewrite filter_cons_False by congruence. apply IH; [done|].
      intros k' Hin' Hp'. apply Hfresh; [by right | done].
Qed.

Lemma FindGeneralSecrets_size m keys :
  RangeOrder m keys →
  size (FindGeneralSecrets prefix keys m) = length (prefixed_keys prefix m).
Proof.
  intros Hr. unfold FindGeneralSecrets.
  rewrite FindGeneralSecrets_fold_size.
  - rewrite map_size_empty. simpl. unfold prefixed_keys, range.
    apply Permutation_length. by rewrite Hr.
  - by apply (RangeOrder_NoDup m).
  - intros. apply lookup_empty.
Qed.
End FindGeneralFacts.

(** ** The scanners: results *)

(** C2. When exactly one key of the annotations bears the GCP
    service-account prefix, and that key is the prefix followed by [s] and
    is mapped to [v], [FindGCPServiceAccountSecret] returns
    [(s, v, true)], in whatever order the keys are visited. *)
Theorem FindGCPServiceAccountSecret_single
    (prefix s v : string) (annotations : gmap string string)
    (keys : list string) :
  RangeOrder annotations keys →
  annotations !! (prefix +:+ s) = Some v →
  (∀ k, is_Some (annotations !! k) → HasPrefix k prefix = true →
        k = prefix +:+ s) →
  FindGCPServiceAccountSecret prefix keys annotations = (s, v, true).
Proof.
  intros Hr Hv Honly.
  destruct (FindGCP_some prefix keys annotations) as (k & Hin & Hp & ->).
  - exists (prefix +:+ s). split; [|apply HasPrefix_app].
    apply (RangeOrder_elem_of annotations); by eauto.
  - apply (RangeOrder_elem_of annotations) in Hin; [|done].
    rewrite (Honly k Hin Hp), TrimPrefix_app.
    by rewrite (index_lookup _ _ _ Hv).
Qed.

(** C6. When no key of the annotations bears the GCP service-account
    prefix, [FindGCPServiceAccountSecret] returns two empty strings and
    [false].  The function returns a triple of two strings and a flag and
    nothing else, and the flag is what tells the case apart: it is [false]
    only when no key bears the prefix, whereas the two strings are also
    empty for the lone key that is the prefix itself with an empty value. *)
Theorem FindGCPServiceAccountSecret_not_found
    (prefix : string) (annotations : gmap string string)
    (keys : list string) :
  RangeOrder annotations keys →
  ((∀ k, is_Some (annotations !! k) → HasPrefix k prefix = false) →
   FindGCPServiceAccountSecret prefix keys annotations = ("", "", false))
  ∧ ((FindGCPServiceAccountSecret prefix keys annotations).2 = false →
     ∀ k, is_Some (annotations !! k) → HasPrefix k prefix = false)
  ∧ FindGCPServiceAccountSecret prefix [prefix] {[prefix := ""]}
    = ("", "", true).
Proof.
  intros Hr. split; [|split].
  - intros Hno. apply FindGCP_none. intros k Hin. apply Hno.
    by apply (RangeOrder_elem_of annotations) in Hin.
  - intros Hf k Hk. apply (FindGCP_found_false prefix keys annotations Hf).
    by apply (RangeOrder_elem_of annotations).
  - rewrite FindGCP_head by apply HasPrefix_refl.
    rewrite TrimPrefix_refl. unfold index. by rewrite lookup_singleton_eq.
Qed.

(** C7. When at least one key of the annotations bears the GCP
    service-account prefix, [FindGCPServiceAccountSecret] returns [true]
    together with the suffix and the value of a key of the annotations that
    bears the prefix, in whatever order the keys are visited.  Which of
    several such keys it is depends on that order: each of them is the one
    returned for some order. *)
Theorem FindGCPServiceAccountSecret_some_match
    (prefix : string) (annotations : gmap string string) :
  (∃ k, is_Some (annotations !! k) ∧ HasPrefix k prefix = true) →
  (∀ keys, RangeOrder annotations keys →
     ∃ name path,
       FindGCPServiceAccountSecret prefix keys annotations
       = (name, path, true)
       ∧ annotations !! (prefix +:+ name) = Some path)
  ∧ (∀ name path,
       annotations !! (prefix +:+ name) = Some path →
       ∃ keys, RangeOrder annotations keys
               ∧ FindGCPServiceAccountSecret prefix keys annotations
                 = (name, path, true)).
Proof.
  intros (k0 & Hk0 & Hp0). split.
  - intros keys Hr.
    destruct (FindGCP_some prefix keys annotations) as (k & Hin & Hp & Heq).
    { exists k0. split; [|done]. by apply (RangeOrder_elem_of annotations). }
    apply (RangeOrder_elem_of annotations) in Hin as [v Hv]; [|done].
    exists (TrimPrefix k prefix), v. split.
    + by rewrite Heq, (index_lookup _ _ _ Hv).
    + by rewrite <- (HasPrefix_split k prefix Hp).
  - intros name path Hv.
    destruct (RangeOrder_first annotations (prefix +:+ name)) as [keys Hr];
      [by eauto|].
    exists ((prefix +:+ name) :: keys). split; [done|].
    rewrite FindGCP_head by apply HasPrefix_app.
    by rewrite TrimPrefix_app, (index_lookup _ _ _ Hv).
Qed.

(** C3. [FindGeneralSecrets] returns the map that sends the suffix of every
    key bearing the general-secrets prefix to the value of that key, and
    nothing else: a name is bound in the result exactly as the prefix
    followed by that name is bound in the annotations.  The result is the
    same for every order in which the keys are visited.  For the
    annotations that map the prefix followed by "a" to "/m1" and the prefix
    followed by "b" to "/m2" it is the map of "a" to "/m1" and "b" to
    "/m2". *)
Theorem FindGeneralSecrets_spec
    (prefix : string) (annotations : gmap string string)
    (keys : list string) :
  RangeOrder annotations keys →
  (∀ name, FindGeneralSecrets prefix keys annotations !! name
           = annotations !! (prefix +:+ name))
  ∧ (∀ k v, annotations !! k = Some v → HasPrefix k prefix = true →
            FindGeneralSecrets prefix keys annotations
              !! TrimPrefix k prefix = Some v)
  ∧ (∀ keys', RangeOrder annotations keys' →
              FindGeneralSecrets prefix keys' annotations
              = FindGeneralSecrets prefix keys annotations)
  ∧ (annotations = {[ prefix +:+ "a" := "/m1"; prefix +:+ "b" := "/m2" ]} →
     FindGeneralSecrets prefix keys annotations
     = {[ "a" := "/m1"; "b" := "/m2" ]}).
Proof.
  intros Hr. split; [|split; [|split]].
  - intros name. by apply FindGeneralSecrets_lookup.
  - intros k v Hv Hp. rewrite FindGeneralSecrets_lookup by done.
    by rewrite <- (HasPrefix_split k prefix Hp).
  - intros keys' Hr'. by apply FindGeneralSecrets_order_irrelevant.
  - intros Heq. apply map_eq. intros name.
    rewrite FindGeneralSecrets_lookup by done. subst annotations.
    destruct (decide (name = "a")) as [->|Ha].
    { by rewrite !lookup_insert_eq. }
    rewrite !lookup_insert_ne;
      [|congruence | by intros ?%string_app_inj_l].
    destruct (decide (name = "b")) as [->|Hb].
    { by rewrite !lookup_singleton_eq. }
    rewrite !lookup_singleton_ne;
      [done | congruence | by intros ?%string_app_inj_l].
Qed.

(** C9. No two keys collide in [FindGeneralSecrets]: two different keys
    that bear the general-secrets prefix have different suffixes, every
    such key has its own entry in the result, and the size of the result
    is the number of keys of the annotations that bear the prefix. *)
Theorem FindGeneralSecrets_no_collision
    (prefix : string) (annotations : gmap string string)
    (keys : list string) :
  RangeOrder annotations keys →
  (∀ k k', HasPrefix k prefix = true → HasPrefix k' prefix = true →
           k ≠ k' → TrimPrefix k prefix ≠ TrimPrefix k' prefix)
  ∧ (∀ k v, annotations !! k = Some v → HasPrefix k prefix = true →
            FindGeneralSecrets prefix keys annotations
              !! TrimPrefix k prefix = Some v)
  ∧ size (FindGeneralSecrets prefix keys annotations)
    = length (prefixed_keys prefix annotations).
Proof.
  intros Hr. split; [|split].
  - intros k k' Hp Hp' Hne Heq. apply Hne.
    by apply (TrimPrefix_inj k k' prefix).
  - intros k v Hv Hp. rewrite FindGeneralSecrets_lookup by done.
    by rewrite <- (HasPrefix_split k prefix Hp).
  - by apply FindGeneralSecrets_size.
Qed.

(** ** The theorems at the sample inputs *)

Lemma FindGCPServiceAccountSecret_single_witness :
  RangeOrder one_gcp_annotations
    ["app"; sample_gcp_prefix +:+ "gcp-key"]
  ∧ FindGCPServiceAccountSecret sample_gcp_prefix
      ["app"; sample_gcp_prefix +:+ "gcp-key"] one_gcp_annotations
    = ("gcp-key", "/mnt/secrets", true).
Proof.
  assert (Hr : RangeOrder one_gcp_annotations
                 ["app"; sample_gcp_prefix +:+ "gcp-key"]).
  { unfold RangeOrder. vm_compute. apply perm_swap. }
  split; [exact Hr|].
  apply (FindGCPServiceAccountSecret_single sample_gcp_prefix "gcp-key"
           "/mnt/secrets" one_gcp_annotations _ Hr).
  - reflexivity.
  - intros k [v Hv] Hp. unfold one_gcp_annotations in Hv.
    apply lookup_insert_Some in Hv as [[<- _]|[_ Hv]].
    + vm_compute in Hp. discriminate Hp.
    + apply lookup_singleton_Some in Hv as [<- _]. reflexivity.
Defined.

Lemma FindGCPServiceAccountSecret_not_found_witness :
  RangeOrder plain_annotations ["team"; "app"]
  ∧ (∀ k, is_Some (plain_annotations !! k) →
          HasPrefix k sample_gcp_prefix = false)
  ∧ FindGCPServiceAccountSecret sample_gcp_prefix ["team"; "app"]
      plain_annotations = ("", "", false).
Proof.
  assert (Hr : RangeOrder plain_annotations ["team"; "app"]).
  { unfold RangeOrder. vm_compute. apply perm_swap. }
  assert (Hno : ∀ k, is_Some (plain_annotations !! k) →
                     HasPrefix k sample_gcp_prefix = false).
  { intros k [v Hv]. unfold plain_annotations in Hv.
    apply lookup_insert_Some in Hv as [[<- _]|[_ Hv]]; [reflexivity|].
    apply lookup_singleton_Some in Hv as [<- _]. reflexivity. }
  split; [exact Hr|]. split; [exact Hno|].
  exact (proj1 (FindGCPServiceAccountSecret_not_found sample_gcp_prefix
                  plain_annotations _ Hr) Hno).
Defined.

Lemma FindGCPServiceAccountSecret_some_match_witness :
  (∃ keys, RangeOrder two_gcp_annotations keys
           ∧ FindGCPServiceAccountSecret sample_gcp_prefix keys
               two_gcp_annotations = ("key-a", "/mnt/a", true))
  ∧ (∃ keys, RangeOrder two_gcp_annotations keys
             ∧ FindGCPServiceAccountSecret sample_gcp_prefix keys
                 two_gcp_annotations = ("key-b", "/mnt/b", true)).
Proof.
  assert (Hex : ∃ k, is_Some (two_gcp_annotations !! k)
                     ∧ HasPrefix k sample_gcp_prefix = true).
  { exists (sample_gcp_prefix +:+ "key-a"). split; [|reflexivity].
    exists "/mnt/a". reflexivity. }
  destruct (FindGCPServiceAccountSecret_some_match sample_gcp_prefix
              two_gcp_annotations Hex) as [_ Hany].
  split; apply Hany; reflexivity.
Defined.

Lemma FindGeneralSecrets_spec_witness :
  RangeOrder general_annotations
    [sample_general_prefix +:+ "b"; sample_general_prefix +:+ "a"]
  ∧ FindGeneralSecrets sample_general_prefix
      [sample_general_prefix +:+ "b"; sample_general_prefix +:+ "a"]
      general_annotations
    = {[ "a" := "/m1"; "b" := "/m2" ]}.
Proof.
  assert (Hr : RangeOrder general_annotations
                 [sample_general_prefix +:+ "b";
                  sample_general_prefix +:+ "a"]).
  { unfold RangeOrder. vm_compute. apply perm_swap. }
  split; [exact Hr|].
  apply (FindGeneralSecrets_spec sample_general_prefix general_annotations
           _ Hr).
  reflexivity.
Defined.

Lemma FindGeneralSecrets_no_collision_witness :
  RangeOrder mixed_annotations (range mixed_annotations)
  ∧ size (FindGeneralSecrets sample_general_prefix
            (range mixed_annotations) mixed_annotations) = 2%nat
  ∧ length (prefixed_keys sample_general_prefix mixed_annotations) = 2%nat.
Proof.
  pose proof (RangeOrder_range mixed_annotations) as Hr.
  split; [exact Hr|].
  destruct (FindGeneralSecrets_no_collision sample_general_prefix
              mixed_annotations _ Hr) as (_ & _ & Hsize).
  rewrite Hsize. split; reflexivity.
Defined.

Lemma mutators_frame_witness :
  Volumes (Spec sample_pod) !! 0%nat = Some (secret_volume "v1" "s1")
  ∧ Volumes (Spec (AddSecretVolumeToPod "v2" "s2" sample_pod)) !! 0%nat
    = Some (secret_volume "v1" "s1")
  ∧ VolumeMounts (MountSecretToContainer "v2" "/etc/gcp" sample_container)
      !! 0%nat = Some (secret_mount "v1" "/etc/creds")
  ∧ Env (MountServiceAccountSecretToContainer "/etc/gcp" sample_container)
      !! 0%nat
    = Some {| EnvVar_Name := "SPARK_HOME"; EnvVar_Value := "/opt/spark" |}.
Proof.
  destruct (mutators_frame "v2" "s2" "/etc/gcp" sample_pod sample_container)
    as ((_ & _ & _ & Hvol) & (_ & _ & _ & Hmount) & (_ & _ & _ & _ & Henv)).
  split; [reflexivity|]. split; [|split].
  - apply Hvol. reflexivity.
  - apply Hmount. reflexivity.
  - apply Henv. reflexivity.
Defined.

(** ** Further properties of the scanners *)

Section ScannerCases.
Variable prefix : string.
Implicit Types (m : gmap string string) (keys : list string).

(** The two ways [FindGCPServiceAccountSecret] ends: after the loop, no key
    having matched, or inside it at a key that matches. *)
Lemma FindGCP_cases keys m :
  (FindGCPServiceAccountSecret prefix keys m = ("", "", false)
   ∧ ∀ k, k ∈ keys → HasPrefix k prefix = false)
  ∨ (∃ k, k ∈ keys ∧ HasPrefix k prefix = true
          ∧ FindGCPServiceAccountSecret prefix keys m
            = (TrimPrefix k prefix, index m k, true)).
Proof.
  induction keys as [|k keys IH]; simpl.
  - left. split; [done|]. by intros k ?%elem_of_nil.
  - destruct (HasPrefix k prefix) eqn:Hk.
    + right. exists k. split; [left | done].
    + destruct IH as [[Heq Hno]|(k' & Hin & Hp & Heq)].
      * left. split; [done|].
        intros k' [->|Hin]%elem_of_cons; [done | by apply Hno].
      * right. exists k'. split; [by right | done].
Qed.

End ScannerCases.

(** X1. [FindGeneralSecrets] returns the empty map exactly when no key of
    the annotations bears the general-secrets prefix, in whatever order the
    keys are visited. *)
Theorem FindGeneralSecrets_empty_iff
    (prefix : string) (annotations : gmap string string)
    (keys : list string) :
  RangeOrder annotations keys →
  FindGeneralSecrets prefix keys annotations = ∅
  ↔ ∀ k, is_Some (annotations !! k) → HasPrefix k prefix = false.
Proof.
  intros Hr. split.
  - intros Hempty k [v Hv]. destruct (HasPrefix k prefix) eqn:Hp; [|done].
    pose proof (FindGeneralSecrets_lookup prefix annotations keys
                  (TrimPrefix k prefix) Hr) as Hl.
    rewrite <- (HasPrefix_split k prefix Hp), Hv, Hempty in Hl.
    by rewrite lookup_empty in Hl.
  - intros Hno. apply map_eq. intros name.
    rewrite FindGeneralSecrets_lookup, lookup_empty by done.
    apply eq_None_not_Some. intros Hsome.
    apply Hno in Hsome. by rewrite HasPrefix_app in Hsome.
Qed.

(** X2. Putting the prefix back in front of the names that
    [FindGeneralSecrets] returns gives back the annotations that bear the
    prefix, and only those: a key is bound to a value among the prefixed
    annotations exactly when it is the prefix followed by a name that the
    result binds to that value. *)
Theorem FindGeneralSecrets_reprefix
    (prefix : string) (annotations : gmap string string)
    (keys : list string) (k v : string) :
  RangeOrder annotations keys →
  filter (λ kv, HasPrefix kv.1 prefix = true) annotations !! k = Some v
  ↔ ∃ name, k = prefix +:+ name
            ∧ FindGeneralSecrets prefix keys annotations !! name = Some v.
Proof.
  intros Hr. rewrite map_lookup_filter_Some. simpl. split.
  - intros [Hv Hp]. exists (TrimPrefix k prefix).
    split; [by apply HasPrefix_split|].
    rewrite FindGeneralSecrets_lookup by done.
    by rewrite <- (HasPrefix_split k prefix Hp).
  - intros (name & -> & Hl).
    rewrite FindGeneralSecrets_lookup in Hl by done.
    split; [done | apply HasPrefix_app].
Qed.

(** X3. Setting one annotation changes the result of [FindGeneralSecrets]
    in one entry at most: a key that bears the prefix sets the entry of its
    suffix to the new value, a key that does not bear it leaves the result
    as it was. *)
Theorem FindGeneralSecrets_insert
    (prefix : string) (annotations : gmap string string)
    (keys keys' : list string) (k v : string) :
  RangeOrder annotations keys →
  RangeOrder (<[k := v]> annotations) keys' →
  FindGeneralSecrets prefix keys' (<[k := v]> annotations)
  = if HasPrefix k prefix
    then <[TrimPrefix k prefix := v]>
           (FindGeneralSecrets prefix keys annotations)
    else FindGeneralSecrets prefix keys annotations.
Proof.
  intros Hr Hr'. apply map_eq. intros name.
  rewrite FindGeneralSecrets_lookup by done.
  destruct (HasPrefix k prefix) eqn:Hp.
  - destruct (decide (TrimPrefix k prefix = name)) as [Heq|Hne].
    + rewrite <- Heq, <- (HasPrefix_split k prefix Hp).
      by rewrite !lookup_insert_eq.
    + rewrite !lookup_insert_ne, FindGeneralSecrets_lookup; [done..|].
      intros Heq. apply Hne. by apply TrimPrefix_eq_iff.
  - rewrite lookup_insert_ne, FindGeneralSecrets_lookup; [done..|].
    intros ->. by rewrite HasPrefix_app in Hp.
Qed.

(** X4. Removing one annotation removes from the result of
    [FindGeneralSecrets] the entry of its suffix when the key bears the
    prefix, and leaves the result as it was when it does not. *)
Theorem FindGeneralSecrets_delete
    (prefix : string) (annotations : gmap string string)
    (keys keys' : list string) (k : string) :
  RangeOrder annotations keys →
  RangeOrder (delete k annotations) keys' →
  FindGeneralSecrets prefix keys' (delete k annotations)
  = if HasPrefix k prefix
    then delete (TrimPrefix k prefix)
           (FindGeneralSecrets prefix keys annotations)
    else FindGeneralSecrets prefix keys annotations.
Proof.
  intros Hr Hr'. apply map_eq. intros name.
  rewrite FindGeneralSecrets_lookup by done.
  destruct (HasPrefix k prefix) eqn:Hp.
  - destruct (decide (TrimPrefix k prefix = name)) as [Heq|Hne].
    + rewrite <- Heq, <- (HasPrefix_split k prefix Hp).
      by rewrite !lookup_delete_eq.
    + rewrite !lookup_delete_ne, FindGeneralSecrets_lookup; [done..|].
      intros Heq. apply Hne. by apply TrimPrefix_eq_iff.
  - rewrite lookup_delete_ne, FindGeneralSecrets_lookup; [done..|].
    intros ->. by rewrite HasPrefix_app in Hp.
Qed.

(** X5. The result of [FindGCPServiceAccountSecret] is the same for every
    order in which the keys are visited exactly when at most one key of the
    annotations bears the GCP service-account prefix. *)
Theorem FindGCPServiceAccountSecret_order_independent_iff
    (prefix : string) (annotations : gmap string string) :
  (∀ keys keys', RangeOrder annotations keys →
                 RangeOrder annotations keys' →
                 FindGCPServiceAccountSecret prefix keys annotations
                 = FindGCPServiceAccountSecret prefix keys' annotations)
  ↔ (∀ k k', is_Some (annotations !! k) → is_Some (annotations !! k') →
             HasPrefix k prefix = true → HasPrefix k' prefix = true →
             k = k').
Proof.
  split.
  - intros Hsame k k' Hk Hk' Hp Hp'.
    destruct (RangeOrder_first annotations k Hk) as [keys Hr].
    destruct (RangeOrder_first annotations k' Hk') as [keys' Hr'].
    specialize (Hsame _ _ Hr Hr').
    rewrite !FindGCP_head in Hsame by done.
    injection Hsame as Hname _. by apply (TrimPrefix_inj k k' prefix).
  - intros Hone keys keys' Hr Hr'.
    destruct (FindGCP_cases prefix keys annotations)
      as [[-> Hno]|(k & Hin & Hp & ->)];
      destruct (FindGCP_cases prefix keys' annotations)
        as [[-> Hno']|(k' & Hin' & Hp' & ->)]; [done|..].
    + apply (RangeOrder_elem_of annotations keys') in Hin'; [|done].
      apply (RangeOrder_elem_of annotations keys) in Hin'; [|done].
      rewrite (Hno k' Hin') in Hp'. done.
    + apply (RangeOrder_elem_of annotations keys) in Hin; [|done].
      apply (RangeOrder_elem_of annotations keys') in Hin; [|done].
      rewrite (Hno' k Hin) in Hp. done.
    + apply (RangeOrder_elem_of annotations keys) in Hin; [|done].
      apply (RangeOrder_elem_of annotations keys') in Hin'; [|done].
      by rewrite (Hone k k' Hin Hin' Hp Hp').
Qed.

(** ** Further properties of the mutating functions *)

(** X6. A series of calls of [AddSecretVolumeToPod] on one pod leaves the
    volumes the pod had in front, followed by one secret volume for each
    call, in the order of the calls; a name that is already there is added
    again.  Nothing else of the pod changes. *)
Theorem AddSecretVolumeToPod_calls
    {M R : Type} (calls : list (string * string)) (pod : Pod M R) :
  let pod' :=
    foldl (λ pod call, AddSecretVolumeToPod call.1 call.2 pod) pod calls in
  Volumes (Spec pod')
  = Volumes (Spec pod) ++ ((λ call, secret_volume call.1 call.2) <$> calls)
  ∧ Pod_meta pod' = Pod_meta pod
  ∧ PodSpec_rest (Spec pod') = PodSpec_rest (Spec pod).
Proof.
  revert pod. induction calls as [|call calls IH]; intros pod; simpl.
  - by rewrite app_nil_r.
  - destruct (IH (AddSecretVolumeToPod call.1 call.2 pod))
      as (Hv & Hm & Hr).
    split; [|done]. rewrite Hv. simpl. unfold append.
    by rewrite <- app_assoc.
Qed.

(** X7. A series of calls of [MountSecretToContainer] on one container
    leaves the mounts the container had in front, followed by one read-only
    mount for each call, in the order of the calls, and leaves the
    environment and the rest of the container alone; when every mount of
    the container was read-only before, every mount is read-only after. *)
Theorem MountSecretToContainer_calls
    {C : Type} (calls : list (string * string)) (container : Container C) :
  let container' :=
    foldl (λ c call, MountSecretToContainer call.1 call.2 c)
          container calls in
  VolumeMounts container'
  = VolumeMounts container
    ++ ((λ call, secret_mount call.1 call.2) <$> calls)
  ∧ Env container' = Env container
  ∧ Container_rest container' = Container_rest container
  ∧ (Forall (λ m, ReadOnly m = true) (VolumeMounts container) →
     Forall (λ m, ReadOnly m = true) (VolumeMounts container')).
Proof.
  assert (Heq : ∀ (c : Container C),
    let c' := foldl (λ c call, MountSecretToContainer call.1 call.2 c)
                    c calls in
    VolumeMounts c'
    = VolumeMounts c ++ ((λ call, secret_mount call.1 call.2) <$> calls)
    ∧ Env c' = Env c ∧ Container_rest c' = Container_rest c).
  { induction calls as [|call calls IH]; intros c; simpl.
    - by rewrite app_nil_r.
    - destruct (IH (MountSecretToContainer call.1 call.2 c))
        as (Hv & He & Hr).
      split; [|done]. rewrite Hv. simpl. unfold append.
      by rewrite <- app_assoc. }
  destruct (Heq container) as (Hv & He & Hr).
  split; [done|]. split; [done|]. split; [done|].
  intros Hall. simpl. rewrite Hv. apply Forall_app. split; [done|].
  apply Forall_fmap, Forall_forall. by intros call _.
Qed.

(** X8. [MountServiceAccountSecretToContainer] is not idempotent: [n]
    calls with one base path add [n] copies of the same mount and [n]
    copies of the same variable after what the container had. *)
Theorem MountServiceAccountSecretToContainer_repeated
    {C : Type} (n : nat) (mountPath : string) (container : Container C) :
  let container' :=
    Nat.iter n (MountServiceAccountSecretToContainer mountPath) container in
  VolumeMounts container'
  = VolumeMounts container
    ++ replicate n (secret_mount ServiceAccountSecretVolumeName mountPath)
  ∧ Env container'
    = Env container
      ++ replicate n
           {| EnvVar_Name := GoogleApplicationCredentialsEnvVar;
              EnvVar_Value :=
                mountPath +:+ "/" +:+ ServiceAccountJSONKeyFileName |}
  ∧ Container_rest container' = Container_rest container.
Proof.
  induction n as [|n IH]; simpl.
  - by rewrite !app_nil_r.
  - destruct IH as (Hv & He & Hr). simpl in *.
    rewrite Hv, He. unfold append.
    rewrite <- !app_assoc.
    change (?x :: replicate n ?x) with (replicate (S n) x).
    by rewrite !replicate_S_end.
Qed.

(** X9. Adding a secret volume to a pod and mounting it under the same
    name in a container keeps every mount of the container bound to a
    volume of the pod: when each mount named a volume of the pod before the
    two calls, each does after them, and the new mount names the new
    volume, which refers to the given secret.  The same holds for
    [MountServiceAccountSecretToContainer] once the volume was added under
    [ServiceAccountSecretVolumeName]. *)
Theorem mounts_name_volumes_preserved
    {M R C : Type} (volumeName secretName mountPath : string)
    (pod : Pod M R) (container : Container C) :
  mounts_bound pod container →
  mounts_bound (AddSecretVolumeToPod volumeName secretName pod)
               (MountSecretToContainer volumeName mountPath container)
  ∧ mounts_bound
      (AddSecretVolumeToPod ServiceAccountSecretVolumeName secretName pod)
      (MountServiceAccountSecretToContainer mountPath container)
  ∧ (∃ v m,
       last (Volumes (Spec (AddSecretVolumeToPod volumeName secretName pod)))
       = Some v
       ∧ last (VolumeMounts
                 (MountSecretToContainer volumeName mountPath container))
         = Some m
       ∧ Volume_Name v = VolumeMount_Name m
       ∧ SecretName <$> Secret (Volume_VolumeSource v) = Some secretName).
Proof.
  intros Hb.
  assert (Hgen : ∀ name,
    mounts_bound (AddSecretVolumeToPod name secretName pod)
                 (MountSecretToContainer name mountPath container)).
  { intros name m Hin. simpl in *. unfold append in *.
    apply elem_of_app in Hin as [Hin|Hin].
    - destruct (Hb m Hin) as (v & Hv & Hn).
      exists v. split; [|done]. apply elem_of_app. by left.
    - apply list_elem_of_singleton in Hin as ->.
      exists (secret_volume name secretName). split; [|done].
      apply elem_of_app. right. by apply list_elem_of_singleton. }
  split; [apply Hgen|]. split; [apply Hgen|].
  exists (secret_volume volumeName secretName),
         (secret_mount volumeName mountPath).
  simpl. unfold append. by rewrite !last_snoc.
Qed.

(** X10. The path that [MountServiceAccountSecretToContainer] puts in the
    variable lies under the mount it adds: the value starts with the mount
    path of that mount, and what follows the mount path is "/key.json". *)
Theorem credentials_path_under_mount
    {C : Type} (mountPath : string) (container : Container C) :
  ∃ m e,
    last (VolumeMounts
            (MountServiceAccountSecretToContainer mountPath container))
    = Some m
    ∧ last (Env (MountServiceAccountSecretToContainer mountPath container))
      = Some e
    ∧ HasPrefix (EnvVar_Value e) (MountPath m) = true
    ∧ TrimPrefix (EnvVar_Value e) (MountPath m) = "/key.json".
Proof.
  exists (secret_mount ServiceAccountSecretVolumeName mountPath).
  eexists. simpl. unfold append. rewrite !last_snoc.
  split; [done|]. split; [done|]. simpl.
  split; [apply HasPrefix_app | apply TrimPrefix_app].
Qed.

(** ** The further properties at the sample inputs *)

Lemma FindGeneralSecrets_empty_iff_witness :
  RangeOrder plain_annotations ["team"; "app"]
  ∧ (∀ k, is_Some (plain_annotations !! k) →
          HasPrefix k sample_general_prefix = false)
  ∧ FindGeneralSecrets sample_general_prefix ["team"; "app"]
      plain_annotations = ∅.
Proof.
  assert (Hr : RangeOrder plain_annotations ["team"; "app"]).
  { unfold RangeOrder. vm_compute. apply perm_swap. }
  assert (Hno : ∀ k, is_Some (plain_annotations !! k) →
                     HasPrefix k sample_general_prefix = false).
  { intros k [v Hv]. unfold plain_annotations in Hv.
    apply lookup_insert_Some in Hv as [[<- _]|[_ Hv]]; [reflexivity|].
    apply lookup_singleton_Some in Hv as [<- _]. reflexivity. }
  split; [exact Hr|]. split; [exact Hno|].
  exact (proj2 (FindGeneralSecrets_empty_iff sample_general_prefix
                  plain_annotations _ Hr) Hno).
Defined.

Lemma FindGeneralSecrets_reprefix_witness :
  RangeOrder mixed_annotations (range mixed_annotations)
  ∧ FindGeneralSecrets sample_general_prefix (range mixed_annotations)
      mixed_annotations !! "db" = Some "/mnt/db"
  ∧ filter (λ kv, HasPrefix kv.1 sample_general_prefix = true)
      mixed_annotations !! (sample_general_prefix +:+ "db")
    = Some "/mnt/db".
Proof.
  pose proof (RangeOrder_range mixed_annotations) as Hr.
  split; [exact Hr|]. split; [reflexivity|].
  apply (FindGeneralSecrets_reprefix sample_general_prefix mixed_annotations
           _ _ _ Hr).
  exists "db". split; reflexivity.
Defined.

Lemma FindGeneralSecrets_insert_witness :
  FindGeneralSecrets sample_general_prefix
    (range (<[sample_general_prefix +:+ "db" := "/mnt/db"]>
              plain_annotations))
    (<[sample_general_prefix +:+ "db" := "/mnt/db"]> plain_annotations)
  = <["db" := "/mnt/db"]>
      (FindGeneralSecrets sample_general_prefix (range plain_annotations)
         plain_annotations).
Proof.
  exact (FindGeneralSecrets_insert sample_general_prefix plain_annotations
           _ _ (sample_general_prefix +:+ "db") "/mnt/db"
           (RangeOrder_range _) (RangeOrder_range _)).
Defined.

Lemma FindGeneralSecrets_delete_witness :
  FindGeneralSecrets sample_general_prefix
    (range (delete (sample_general_prefix +:+ "a") general_annotations))
    (delete (sample_general_prefix +:+ "a") general_annotations)
  = delete "a"
      (FindGeneralSecrets sample_general_prefix (range general_annotations)
         general_annotations).
Proof.
  exact (FindGeneralSecrets_delete sample_general_prefix general_annotations
           _ _ (sample_general_prefix +:+ "a")
           (RangeOrder_range _) (RangeOrder_range _)).
Defined.

Lemma FindGCPServiceAccountSecret_order_independent_iff_witness :
  RangeOrder one_gcp_annotations ["app"; sample_gcp_prefix +:+ "gcp-key"]
  ∧ RangeOrder one_gcp_annotations [sample_gcp_prefix +:+ "gcp-key"; "app"]
  ∧ FindGCPServiceAccountSecret sample_gcp_prefix
      ["app"; sample_gcp_prefix +:+ "gcp-key"] one_gcp_annotations
    = FindGCPServiceAccountSecret sample_gcp_prefix
        [sample_gcp_prefix +:+ "gcp-key"; "app"] one_gcp_annotations.
Proof.
  assert (Hr : RangeOrder one_gcp_annotations
                 ["app"; sample_gcp_prefix +:+ "gcp-key"]).
  { unfold RangeOrder. vm_compute. apply perm_swap. }
  assert (Hr' : RangeOrder one_gcp_annotations
                  [sample_gcp_prefix +:+ "gcp-key"; "app"]).
  { unfold RangeOrder. vm_compute. reflexivity. }
  assert (Hkey : ∀ k, is_Some (one_gcp_annotations !! k) →
                      HasPrefix k sample_gcp_prefix = true →
                      k = sample_gcp_prefix +:+ "gcp-key").
  { intros k [v Hv] Hp. unfold one_gcp_annotations in Hv.
    apply lookup_insert_Some in Hv as [[<- _]|[_ Hv]].
    - vm_compute in Hp. discriminate Hp.
    - apply lookup_singleton_Some in Hv as [<- _]. reflexivity. }
  split; [exact Hr|]. split; [exact Hr'|].
  apply (proj2 (FindGCPServiceAccountSecret_order_independent_iff
                  sample_gcp_prefix one_gcp_annotations)); [|exact Hr|exact Hr'].
  intros k k' Hk Hk' Hp Hp'.
  rewrite (Hkey k Hk Hp), (Hkey k' Hk' Hp'). reflexivity.
Defined.

Lemma MountSecretToContainer_calls_witness :
  Forall (λ m, ReadOnly m = true) (VolumeMounts sample_container)
  ∧ Forall (λ m, ReadOnly m = true)
      (VolumeMounts
         (MountSecretToContainer "v3" "/etc/tls"
            (MountSecretToContainer "v2" "/etc/db" sample_container))).
Proof.
  assert (Hall : Forall (λ m, ReadOnly m = true)
                   (VolumeMounts sample_container)).
  { repeat constructor. }
  split; [exact Hall|].
  destruct (MountSecretToContainer_calls
              [("v2", "/etc/db"); ("v3", "/etc/tls")] sample_container)
    as (_ & _ & _ & Hkeep).
  exact (Hkeep Hall).
Defined.

Lemma mounts_name_volumes_preserved_witness :
  mounts_bound sample_pod sample_container
  ∧ mounts_bound (AddSecretVolumeToPod "v2" "s2" sample_pod)
      (MountSecretToContainer "v2" "/etc/db" sample_container).
Proof.
  assert (Hb : mounts_bound sample_pod sample_container).
  { intros m Hin. simpl in Hin. apply list_elem_of_singleton in Hin as ->.
    exists (secret_volume "v1" "s1"). split; [|reflexivity].
    simpl. apply list_elem_of_singleton. reflexivity. }
  split; [exact Hb|].
  exact (proj1 (mounts_name_volumes_preserved "v2" "s2" "/etc/db"
                  sample_pod sample_container Hb)).
Defined.
